(** * merezhka: the self-thread reconstruction of [fetch_thread], the
    status/context fetcher, the route-parameter fallbacks of [Threads] and the
    URL interpreter of [Home], embedded from [src/main.rs]. *)

From Stdlib Require Import String List Lia Permutation Bool Ascii.
Import ListNotations.
Open Scope string_scope.

(** ** Data model (lines 8-26) *)

Module Account.
(** [struct Account { id, username, display_name }] *)
Record t := mk {
    id : string;
    username : string;
    display_name : string
  }.
End Account.

Module Status.
(** [struct Status { id, in_reply_to_id: Option<String>, account, content }] *)
Record t := mk {
    id : string;
    in_reply_to_id : option string;
    account : Account.t;
    content : string
  }.
End Status.

Module Context.
(** [struct Context { descendants: Vec<Status> }] *)
Record t := mk {
    descendants : list Status.t
  }.
End Context.

(** ** The reconstruction loop of [fetch_thread] (lines 50-70) *)

Module Thread.

(** [thread.last()]: [None] on an empty vector. *)
Fixpoint last_opt {A} (l : list A) : option A :=
  match l with
  | [] => None
  | [x] => Some x
  | _ :: l' => last_opt l'
  end.

(** [Iterator::partition] with a closure that may panic: [None] is the
    panic, otherwise the elements for which the closure returned [true] and
    those for which it returned [false], each in iteration order. *)
Fixpoint partition_opt {A} (p : A -> option bool) (l : list A)
  : option (list A * list A) :=
  match l with
  | [] => Some ([], [])
  | x :: l' =>
      match p x with
      | None => None
      | Some b =>
          match partition_opt p l' with
          | None => None
          | Some (m, r) => Some (if b then (x :: m, r) else (m, x :: r))
          end
      end
  end.

(** The closure of line 59:
    [s.account.id == *account_id && s.in_reply_to_id.as_ref().unwrap() == &last.id].
    The [&&] is short-circuiting, so the [unwrap] (a panic, [None] here) is
    only reached for a descendant by the root's author. *)
Definition matches_last (account_id : string) (last : Status.t) (s : Status.t)
  : option bool :=
  if String.eqb (Account.id (Status.account s)) account_id then
    match Status.in_reply_to_id s with
    | None => None
    | Some r => Some (String.eqb r (Status.id last))
    end
  else Some false.

(** What one pass of the [loop] body does. *)
Inductive step :=
| Continue (thread descendants : list Status.t)
| Break (thread : list Status.t)
| StepPanic.

(** One pass of the [loop] body (lines 56-67). *)
Definition loop_body (account_id : string) (thread descendants : list Status.t)
  : step :=
  match last_opt thread with
  | None => StepPanic
  | Some last =>
      match partition_opt (matches_last account_id last) descendants with
      | None => StepPanic
      | Some (matched, remaining) =>
          match matched with
          | [] => Break thread
          | _ :: _ => Continue (thread ++ matched) remaining
          end
      end
  end.

(** How the loop ends: [break] with the thread, a panic, or (in this model
    only) the iteration budget running out. *)
Inductive outcome :=
| Returned (thread : list Status.t)
| Panicked
| OutOfFuel.

(** The [loop] run for at most [fuel] passes of its body. *)
Fixpoint run_loop (fuel : nat) (account_id : string)
    (thread descendants : list Status.t) : outcome :=
  match fuel with
  | O => OutOfFuel
  | S fuel' =>
      match loop_body account_id thread descendants with
      | Continue thread' descendants' => run_loop fuel' account_id thread' descendants'
      | Break thread' => Returned thread'
      | StepPanic => Panicked
      end
  end.

(** Lines 50-70 of [fetch_thread]: [account_id], [thread = vec![status]],
    [descendants = context.descendants] and the loop, given one pass per
    descendant plus the final one. *)
Definition reconstruct (status : Status.t) (context : Context.t) : outcome :=
  let account_id := Account.id (Status.account status) in
  run_loop (S (length (Context.descendants context))) account_id
    [status] (Context.descendants context).

End Thread.

(** ** [fetch_status_and_context] (lines 34-46) *)

Module Fetch.

(** [anyhow::Result]. *)
Inductive result (A E : Type) :=
| Ok (a : A)
| Err (e : E).
Arguments Ok {A E} a.
Arguments Err {A E} e.

(** [(a, b).try_join()] on two fallible futures: both values when both
    succeed, otherwise one failure (that of the first component here; the
    concurrent join reports whichever fails first). *)
Definition try_join {A B E} (a : result A E) (b : result B E) : result (A * B) E :=
  match a with
  | Err e => Err e
  | Ok x =>
      match b with
      | Err e => Err e
      | Ok y => Ok (x, y)
      end
  end.

Section Fetcher.
(** The HTTP client: [http::Request::get(url).send()] yields a response or a
    failure; [response.json::<T>()] decodes its body or fails. *)
Variables Response Error : Type.
Variable send : string -> result Response Error.
Variable json_status : Response -> result Status.t Error.
Variable json_context : Response -> result Context.t Error.

Definition status_url (host id : string) : string :=
  "https://" ++ host ++ "/api/v1/statuses/" ++ id.

Definition context_url (host id : string) : string :=
  "https://" ++ host ++ "/api/v1/statuses/" ++ id ++ "/context".

(** Lines 35-45, the [?] returning the join's failure. *)
Definition fetch_status_and_context (host id : string)
  : result (Status.t * Context.t) Error :=
  let status := send (status_url host id) in
  let context := send (context_url host id) in
  match try_join status context with
  | Err e => Err e
  | Ok (status, context) =>
      match try_join (json_status status) (json_context context) with
      | Err e => Err e
      | Ok (status, context) => Ok (status, context)
      end
  end.
End Fetcher.

End Fetch.

(** ** Route parameters of [Threads] (lines 113-140) *)

Module Threads.

(** [use_params::<IdParams>()]: either the parsed [IdParams { host, id }]
    (each an [Option<String>]) or a [ParamsError]. *)
Inductive params :=
| ParamsOk (host id : option string)
| ParamsErr.

(** The [host] closure (lines 115-122). *)
Definition host (p : params) : option string :=
  match p with
  | ParamsOk h _ => h
  | ParamsErr => Some "mastodon.social"
  end.

(** The [id] closure (lines 124-131). *)
Definition id (p : params) : option string :=
  match p with
  | ParamsOk _ i => i
  | ParamsErr => Some "1"
  end.

(** The arguments the resource passes to [fetch_thread] (lines 136-138):
    [id().unwrap()] then [host().unwrap()]; [None] is the panic of an
    [unwrap] on [None]. *)
Definition fetch_args (p : params) : option (string * string) :=
  match id p with
  | None => None
  | Some i =>
      match host p with
      | None => None
      | Some h => Some (h, i)
      end
  end.

End Threads.

(** ** The URL interpreter of [Home] (lines 77-91) *)

Module Home.

(** [c.is_digit(10)]: the ASCII digits '0' to '9'. *)
Definition is_digit10 (c : ascii) : bool :=
  let n := nat_of_ascii c in Nat.leb 48 n && Nat.leb n 57.

(** [id.chars().find(|c| !c.is_digit(10)).is_some()] *)
Definition id_is_non_numeric (id : string) : bool :=
  existsb (fun c => negb (is_digit10 c)) (list_ascii_of_string id).

(** What the effect does. *)
Inductive effect :=
| Navigate (route : string)
| NoNavigation
| EffectPanic.

Section Effect.
(** [url::Url::parse(s)] observed through [(url.host_str(), url.path_segments())]:
    [None] for a parse error. *)
Variable url_parse : string -> option (option string * option (list string)).

(** The body of [create_effect] (lines 78-90). *)
Definition home_effect (url : string) : effect :=
  match url_parse url with
  | Some (Some host, Some segments) =>
      match Thread.last_opt segments with
      | None => EffectPanic
      | Some id =>
          if negb (id_is_non_numeric id)
          then Navigate ("/" ++ host ++ "/" ++ id)
          else NoNavigation
      end
  | _ => NoNavigation
  end.
End Effect.

(** A stand-in for [url::Url::parse], used only at concrete sample URLs. On
    URLs [http://host/p1/.../pn] or [https://host/p1/.../pn] whose host is in
    lower case without userinfo or port and whose path has no query,
    fragment, percent escape or dot segment, it gives what [url::Url::parse]
    gives: the host and the [/]-separated path segments ([[""]] for an empty
    path). It is not faithful on other inputs: it maps every other scheme to
    [None], and keeps upper case, userinfo, port and query text as they
    are. *)
Fixpoint break_slash (s : string) : string * string :=
  match s with
  | EmptyString => (EmptyString, EmptyString)
  | String c rest =>
      if Ascii.eqb c "/" then (EmptyString, s)
      else let (a, b) := break_slash rest in (String c a, b)
  end.

Fixpoint split_slash (s : string) : list string :=
  match s with
  | EmptyString => [EmptyString]
  | String c rest =>
      let parts := split_slash rest in
      if Ascii.eqb c "/" then EmptyString :: parts
      else match parts with
           | p :: ps => String c p :: ps
           | [] => [String c EmptyString]
           end
  end.

Definition path_segments (path : string) : list string :=
  match path with
  | EmptyString => [EmptyString]
  | String _ rest => split_slash rest
  end.

Definition parse_authority_path (rest : string)
  : option (option string * option (list string)) :=
  let (host, path) := break_slash rest in
  if String.eqb host "" then None
  else Some (Some host, Some (path_segments path)).

Definition url_parse_fragment (s : string)
  : option (option string * option (list string)) :=
  if String.prefix "https://" s then parse_authority_path (substring 8 (String.length s) s)
  else if String.prefix "http://" s then parse_authority_path (substring 7 (String.length s) s)
  else None.

End Home.


(** ** [fetch_thread] as a whole and the [Threads] view (lines 48-71, 133-161) *)

Module View.

(** What [fetch_thread] ends in: [Ok(thread)], the [Err] of the fetch
    propagated by [?] (line 49), a panic of the loop, or (in this model only)
    the loop's budget running out. *)
Inductive thread_outcome (E : Type) :=
| ThreadOk (thread : list Status.t)
| ThreadErr (e : E)
| ThreadPanic
| ThreadOutOfFuel.
Arguments ThreadOk {E} thread.
Arguments ThreadErr {E} e.
Arguments ThreadPanic {E}.
Arguments ThreadOutOfFuel {E}.

Section Client.
Variables Response Error : Type.
Variable send : string -> Fetch.result Response Error.
Variable json_status : Response -> Fetch.result Status.t Error.
Variable json_context : Response -> Fetch.result Context.t Error.

(** [fetch_thread] (lines 48-71). *)
Definition fetch_thread (host id : string) : thread_outcome Error :=
  match Fetch.fetch_status_and_context Response Error send json_status json_context host id with
  | Fetch.Err e => ThreadErr e
  | Fetch.Ok (status, context) =>
      match Thread.reconstruct status context with
      | Thread.Returned thread => ThreadOk thread
      | Thread.Panicked => ThreadPanic
      | Thread.OutOfFuel => ThreadOutOfFuel
      end
  end.

(** The future of [create_resource] (lines 135-139):
    [id().unwrap()], [host().unwrap()], then
    [fetch_thread(&host, &id).await.unwrap()]; every failure is a panic. *)
Definition thread_resource (p : Threads.params) : Thread.outcome :=
  match Threads.fetch_args p with
  | None => Thread.Panicked
  | Some (host, id) =>
      match fetch_thread host id with
      | ThreadOk thread => Thread.Returned thread
      | ThreadErr _ => Thread.Panicked
      | ThreadPanic => Thread.Panicked
      | ThreadOutOfFuel => Thread.OutOfFuel
      end
  end.
End Client.

(** The nodes of the middle column of the [Threads] view. *)
Inductive node :=
| Paragraph (text : string)
| InnerHtmlDiv (html : string)
| Hr.

(** [match thread.get()] (lines 148-155): ["loading..."] while the resource
    is pending, then for each status a [<div inner_html=status.content/>]
    followed by [<hr/>]. *)
Definition render (resource : option (list Status.t)) : list node :=
  match resource with
  | None => [Paragraph "loading..."]
  | Some thread => flat_map (fun status => [InnerHtmlDiv (Status.content status); Hr]) thread
  end.

(** The inner HTML of the [div] nodes, in order. *)
Fixpoint inner_htmls (nodes : list node) : list string :=
  match nodes with
  | [] => []
  | InnerHtmlDiv h :: rest => h :: inner_htmls rest
  | _ :: rest => inner_htmls rest
  end.

End View.

(** ** Reading aids for the statements *)

Open Scope list_scope.

Module ThreadSpec.
Import Thread.

(** The spec's matching rule, total: same author as the root and a present
    reply target equal to [last]'s id. *)
Definition matches_spec (account_id : string) (last : Status.t) (s : Status.t) : bool :=
  String.eqb (Account.id (Status.account s)) account_id &&
  match Status.in_reply_to_id s with
  | Some r => String.eqb r (Status.id last)
  | None => false
  end.

(** A thread built from a first post by appending non-empty batches, every
    post of a batch being by [account_id] and replying to the post that was
    last before the batch. *)
Inductive batched_thread (account_id : string) : list Status.t -> Prop :=
| batched_root (r : Status.t) : batched_thread account_id [r]
| batched_step (t : list Status.t) (p : Status.t) (b : list Status.t) :
    batched_thread account_id (t ++ [p]) ->
    b <> [] ->
    Forall (fun s => Account.id (Status.account s) = account_id /\
                     Status.in_reply_to_id s = Some (Status.id p)) b ->
    batched_thread account_id ((t ++ [p]) ++ b).

(** [ps] is a reply chain hanging off [p]: each post by [account_id] and
    replying to the one before it, the first replying to [p]. *)
Inductive chain_from (account_id : string) : Status.t -> list Status.t -> Prop :=
| chain_nil (p : Status.t) : chain_from account_id p []
| chain_cons (p q : Status.t) (qs : list Status.t) :
    Account.id (Status.account q) = account_id ->
    Status.in_reply_to_id q = Some (Status.id p) ->
    chain_from account_id q qs ->
    chain_from account_id p (q :: qs).

(** A descendant by [account_id] without a reply target. *)
Definition unrepliable (account_id : string) (s : Status.t) : Prop :=
  Account.id (Status.account s) = account_id /\ Status.in_reply_to_id s = None.

End ThreadSpec.

(** ** Lemmas on the reconstruction loop *)

Module ThreadFacts.
Import Thread ThreadSpec.

Lemma last_opt_snoc {A} (t : list A) (x : A) : last_opt (t ++ [x]) = Some x.
Proof.
  induction t as [|y t IH]; [reflexivity|].
  simpl. rewrite IH. destruct (t ++ [x]) eqn:E; [destruct t; discriminate|reflexivity].
Qed.

Lemma last_opt_some {A} (t : list A) (x : A) :
  last_opt t = Some x -> exists t0, t = t0 ++ [x].
Proof.
  induction t as [|y t IH]; [discriminate|].
  destruct t as [|z t].
  - intros H. injection H as ->. exists []. reflexivity.
  - intros H. destruct (IH H) as [t0 E]. exists (y :: t0). rewrite E. reflexivity.
Qed.

Lemma last_opt_nonempty {A} (t : list A) : t <> [] -> exists x, last_opt t = Some x.
Proof.
  intros H. destruct (@exists_last A t H) as (t0 & x & ->).
  exists x. apply last_opt_snoc.
Qed.

Definition opt_true (o : option bool) : bool :=
  match o with Some true => true | _ => false end.

Lemma partition_opt_none {A} (p : A -> option bool) (l : list A) :
  partition_opt p l = None <-> Exists (fun x => p x = None) l.
Proof.
  induction l as [|x l IH]; simpl.
  - split; [discriminate | intros H; inversion H].
  - rewrite Exists_cons. destruct (p x) as [b|] eqn:Px.
    + destruct (partition_opt p l) as [[m r]|] eqn:E.
      * split; [discriminate|]. intros [H|H]; [discriminate|].
        apply IH in H. discriminate.
      * split; [intros _; right; apply IH; reflexivity | reflexivity].
    + split; [intros _; left; reflexivity | reflexivity].
Qed.

Lemma partition_opt_some {A} (p : A -> option bool) (l m r : list A) :
  partition_opt p l = Some (m, r) ->
  m = filter (fun x => opt_true (p x)) l /\
  r = filter (fun x => negb (opt_true (p x))) l /\
  Forall (fun x => p x <> None) l.
Proof.
  revert m r. induction l as [|x l IH]; intros m r; simpl.
  - intros H. injection H as <- <-. auto.
  - destruct (p x) as [b|] eqn:Px; [|discriminate].
    destruct (partition_opt p l) as [[m' r']|] eqn:E; [|discriminate].
    destruct (IH m' r' eq_refl) as (Hm & Hr & Hf).
    intros H. destruct b; injection H as <- <-; simpl;
      (split; [|split]); subst; auto; constructor; congruence.
Qed.

Lemma filter_split_perm {A} (f : A -> bool) (l : list A) :
  Permutation (filter f l ++ filter (fun x => negb (f x)) l) l.
Proof.
  induction l as [|x l IH]; simpl; [constructor|].
  destruct (f x); simpl.
  - constructor. exact IH.
  - apply Permutation_sym, Permutation_cons_app, Permutation_sym, IH.
Qed.

(** The closure, when it does not panic, agrees with the spec's rule. *)
Lemma opt_true_matches (a : string) (last s : Status.t) :
  opt_true (matches_last a last s) = matches_spec a last s.
Proof.
  unfold matches_last, matches_spec.
  destruct (String.eqb _ a); simpl; [|reflexivity].
  destruct (Status.in_reply_to_id s); [|reflexivity].
  simpl. destruct (String.eqb _ _); reflexivity.
Qed.

Lemma matches_last_true (a : string) (last s : Status.t) :
  opt_true (matches_last a last s) = true ->
  Account.id (Status.account s) = a /\
  Status.in_reply_to_id s = Some (Status.id last).
Proof.
  unfold matches_last. destruct (String.eqb _ a) eqn:Ea; [|discriminate].
  apply String.eqb_eq in Ea.
  destruct (Status.in_reply_to_id s) as [r|]; [|discriminate].
  simpl. destruct (String.eqb r _) eqn:Er; [|discriminate].
  apply String.eqb_eq in Er. subst. auto.
Qed.

Lemma matches_last_none (a : string) (last s : Status.t) :
  matches_last a last s = None <-> unrepliable a s.
Proof.
  unfold matches_last, unrepliable.
  destruct (String.eqb _ a) eqn:Ea.
  - apply String.eqb_eq in Ea.
    destruct (Status.in_reply_to_id s); split; intros H;
      try discriminate; try (destruct H; discriminate); auto.
  - split; [discriminate|]. intros [H _]. apply String.eqb_neq in Ea. contradiction.
Qed.

Lemma body_continue (a : string) (t d t' d' : list Status.t) :
  loop_body a t d = Continue t' d' ->
  exists last m,
    last_opt t = Some last /\ m <> [] /\ t' = t ++ m /\
    m = filter (matches_spec a last) d /\
    d' = filter (fun s => negb (matches_spec a last s)) d /\
    Forall (fun s => Account.id (Status.account s) = a /\
                     Status.in_reply_to_id s = Some (Status.id last)) m.
Proof.
  unfold loop_body.
  destruct (last_opt t) as [last|]; [|discriminate].
  destruct (partition_opt (matches_last a last) d) as [[m r]|] eqn:P; [|discriminate].
  destruct (partition_opt_some _ _ _ _ P) as (Hm & Hr & _).
  destruct m as [|x m']; [discriminate|].
  intros H. injection H as <- <-.
  exists last, (x :: m'). repeat split; try congruence.
  - rewrite Hm. apply filter_ext. intros s. apply opt_true_matches.
  - rewrite Hr. apply filter_ext. intros s. rewrite opt_true_matches. reflexivity.
  - apply Forall_forall. intros s Hs. rewrite Hm in Hs.
    apply filter_In in Hs as [_ Hs]. apply matches_last_true. exact Hs.
Qed.

Lemma body_break (a : string) (t d t' : list Status.t) :
  loop_body a t d = Break t' -> t' = t.
Proof.
  unfold loop_body.
  destruct (last_opt t) as [last|]; [|discriminate].
  destruct (partition_opt (matches_last a last) d) as [[[|x m] r]|]; try discriminate.
  congruence.
Qed.

Lemma body_panic (a : string) (t d : list Status.t) :
  t <> [] -> loop_body a t d = StepPanic -> Exists (unrepliable a) d.
Proof.
  intros Ht. unfold loop_body.
  destruct (last_opt_nonempty t Ht) as [last ->].
  destruct (partition_opt (matches_last a last) d) as [[[|x m] r]|] eqn:P; try discriminate.
  intros _. apply partition_opt_none in P.
  eapply Exists_impl; [|exact P]. intros s Hs. apply (matches_last_none a last s). exact Hs.
Qed.

Lemma body_panics_on (a : string) (t d : list Status.t) :
  t <> [] -> Exists (unrepliable a) d -> loop_body a t d = StepPanic.
Proof.
  intros Ht Hd. unfold loop_body.
  destruct (last_opt_nonempty t Ht) as [last ->].
  assert (P : partition_opt (matches_last a last) d = None).
  { apply partition_opt_none. eapply Exists_impl; [|exact Hd].
    intros s Hs. apply matches_last_none. exact Hs. }
  rewrite P. reflexivity.
Qed.

Lemma continue_perm (a : string) (t d t' d' : list Status.t) :
  loop_body a t d = Continue t' d' ->
  exists m, t' = t ++ m /\ m <> [] /\ Permutation (m ++ d') d.
Proof.
  intros H. destruct (body_continue _ _ _ _ _ H)
    as (last & m & _ & Hm & -> & Em & Ed & _).
  exists m. repeat split; auto. subst. apply filter_split_perm.
Qed.

Lemma continue_shrinks (a : string) (t d t' d' : list Status.t) :
  loop_body a t d = Continue t' d' -> length d' < length d.
Proof.
  intros H. destruct (continue_perm _ _ _ _ _ H) as (m & _ & Hm & P).
  apply Permutation_length in P. rewrite length_app in P.
  destruct m; [contradiction|]. simpl in P. lia.
Qed.

Lemma continue_nonempty (a : string) (t d t' d' : list Status.t) :
  loop_body a t d = Continue t' d' -> t' <> [].
Proof.
  intros H. destruct (continue_perm _ _ _ _ _ H) as (m & -> & Hm & _).
  destruct m; [contradiction|]. intros E. apply app_eq_nil in E as [_ E]. discriminate.
Qed.

Lemma run_loop_enough_fuel (fuel : nat) (a : string) (t d : list Status.t) :
  length d < fuel -> run_loop fuel a t d <> OutOfFuel.
Proof.
  revert t d. induction fuel as [|fuel IH]; intros t d Hf; [lia|].
  simpl. destruct (loop_body a t d) as [t' d'|t'|] eqn:B; try discriminate.
  apply IH. apply continue_shrinks in B. lia.
Qed.

Lemma run_loop_returned (fuel : nat) (a : string) (t d t' : list Status.t) :
  run_loop fuel a t d = Returned t' ->
  exists added rest,
    t' = t ++ added /\ Permutation (added ++ rest) d /\
    (batched_thread a t -> batched_thread a t') /\
    Forall (fun s => Status.in_reply_to_id s <> None) added.
Proof.
  revert t d. induction fuel as [|fuel IH]; intros t d; simpl; [discriminate|].
  destruct (loop_body a t d) as [t1 d1|t1|] eqn:B; try discriminate.
  - intros H. destruct (IH _ _ H) as (added & rest & -> & P & Hb & Hn).
    destruct (body_continue _ _ _ _ _ B) as (last & m & L & Hm & -> & Em & Ed & F).
    exists (m ++ added), rest. repeat split.
    + rewrite app_assoc. reflexivity.
    + rewrite <- app_assoc. rewrite P. subst m d1. apply filter_split_perm.
    + intros Ht. apply Hb.
      destruct (last_opt_some _ _ L) as [t0 ->].
      apply batched_step; assumption.
    + apply Forall_app. split; [|exact Hn].
      eapply Forall_impl; [|exact F]. intros s [_ E]. congruence.
  - intros H. injection H as <-. apply body_break in B. subst t1.
    exists [], d. rewrite app_nil_r. repeat split; auto.
Qed.

Lemma run_loop_panicked (fuel : nat) (a : string) (t d : list Status.t) :
  t <> [] -> 0 < fuel ->
  (run_loop fuel a t d = Panicked <-> Exists (unrepliable a) d).
Proof.
  intros Ht Hf. split.
  - revert t d Ht. induction fuel as [|fuel IH]; intros t d Ht; simpl; [discriminate|].
    destruct (loop_body a t d) as [t1 d1|t1|] eqn:B; try discriminate.
    + destruct fuel as [|fuel]; [discriminate|].
      intros H. specialize (IH ltac:(lia) t1 d1 (continue_nonempty _ _ _ _ _ B) H).
      destruct (continue_perm _ _ _ _ _ B) as (m & _ & _ & P).
      apply Exists_exists in IH as (s & Hs & Us).
      apply Exists_exists. exists s. split; [|exact Us].
      apply (Permutation_in _ P). apply in_or_app. right. exact Hs.
    + intros _. apply (body_panic a t d Ht B).
  - intros Hd. destruct fuel as [|fuel]; [lia|]. simpl.
    rewrite (body_panics_on a t d Ht Hd). reflexivity.
Qed.

Lemma partition_opt_total {A} (p : A -> option bool) (l : list A) :
  Forall (fun x => p x <> None) l ->
  partition_opt p l =
  Some (filter (fun x => opt_true (p x)) l, filter (fun x => negb (opt_true (p x))) l).
Proof.
  induction 1 as [|x l Hx _ IH]; [reflexivity|].
  simpl. rewrite IH. destruct (p x) as [[|]|]; [reflexivity | reflexivity | contradiction].
Qed.

End ThreadFacts.

(** ** Fixtures *)

Module Fixtures.

Definition acct_A : Account.t := Account.mk "A" "alice" "Alice".
Definition acct_B : Account.t := Account.mk "B" "bob" "Bob".

Definition post (i : string) (reply_to : option string) (acct : Account.t) : Status.t :=
  Status.mk i reply_to acct (String.append "<p>" (String.append i "</p>")).

(** Root: id 1 by author A. *)
Definition root : Status.t := post "1" None acct_A.
Definition p2 : Status.t := post "2" (Some "1") acct_A.
Definition p3_to_2 : Status.t := post "3" (Some "2") acct_A.
Definition p3_to_1 : Status.t := post "3" (Some "1") acct_A.
Definition p4_B : Status.t := post "4" (Some "1") acct_B.
(** A descendant by A with no reply target. *)
Definition p5_orphan : Status.t := post "5" None acct_A.
(** A descendant by B with no reply target. *)
Definition p6_orphan_B : Status.t := post "6" None acct_B.

Definition chain_ctx : Context.t := Context.mk [p2; p3_to_2; p4_B].
Definition batch_ctx : Context.t := Context.mk [p2; p3_to_1].
Definition orphan_ctx : Context.t := Context.mk [p2; p5_orphan].
Definition orphan_B_ctx : Context.t := Context.mk [p6_orphan_B; p2; p3_to_2].

End Fixtures.

(** ** The claims on the reconstruction loop *)

Module ThreadClaims.
Import Thread ThreadSpec ThreadFacts Fixtures.

Lemma batched_tail (a : string) (t : list Status.t) :
  batched_thread a t ->
  exists r rest, t = r :: rest /\
    Forall (fun s => Account.id (Status.account s) = a) rest.
Proof.
  induction 1 as [r|t p b _ IH Hb F].
  - exists r, []. auto.
  - destruct IH as (r & rest & E & Fr). exists r, (rest ++ b).
    rewrite E. split; [reflexivity|].
    apply Forall_app. split; [exact Fr|].
    eapply Forall_impl; [|exact F]. intros s [H _]. exact H.
Qed.

Lemma reconstruct_returned (r : Status.t) (c : Context.t) (t : list Status.t) :
  reconstruct r c = Returned t ->
  exists added rest,
    t = r :: added /\ Permutation (added ++ rest) (Context.descendants c) /\
    batched_thread (Account.id (Status.account r)) t /\
    Forall (fun s => Status.in_reply_to_id s <> None) added.
Proof.
  unfold reconstruct. intros H.
  destruct (run_loop_returned _ _ _ _ _ H) as (added & rest & -> & P & Hb & Hn).
  exists added, rest. repeat split; auto. apply Hb. constructor.
Qed.

(** C1 (counterexample): a descendant by the root's author with no reply
    target makes the reconstruction panic. *)
Lemma C1_orphan_panics : reconstruct root orphan_ctx = Panicked.
Proof. reflexivity. Qed.

(** C1 (amended): the reconstruction panics exactly when some descendant has
    the root's author id and no [in_reply_to_id]; otherwise it ends with a
    thread, descendants without reply target (then by other authors) are
    skipped without error, and no post after the first lacks a reply
    target. *)
Theorem C1_reconstruct_total_except_orphans (r : Status.t) (c : Context.t) :
  (reconstruct r c = Panicked <->
   Exists (unrepliable (Account.id (Status.account r))) (Context.descendants c)) /\
  reconstruct r c <> OutOfFuel /\
  (forall t, reconstruct r c = Returned t ->
     Forall (fun s => Status.in_reply_to_id s <> None) (tl t)).
Proof.
  split; [|split].
  - apply run_loop_panicked; [discriminate | lia].
  - apply run_loop_enough_fuel. lia.
  - intros t H. destruct (reconstruct_returned _ _ _ H) as (added & _ & -> & _ & _ & Hn).
    exact Hn.
Qed.

(** C2 (counterexample): with two replies to the root by its author the
    thread is [[1; 2; 3]], and post 3 replies to 1, not to the preceding
    post 2. *)
Lemma C2_batch_breaks_chain :
  reconstruct root batch_ctx = Returned [root; p2; p3_to_1] /\
  Status.in_reply_to_id p3_to_1 <> Some (Status.id p2).
Proof. split; [reflexivity | discriminate]. Qed.

(** C2 (amended): a returned thread starts with the root, has every post
    after the first by the root's author, and is the root followed by
    non-empty batches, each post of a batch replying to the post that was last
    before its batch. *)
Theorem C2_thread_is_batched (r : Status.t) (c : Context.t) (t : list Status.t) :
  reconstruct r c = Returned t ->
  hd_error t = Some r /\
  Forall (fun s => Account.id (Status.account s) = Account.id (Status.account r)) (tl t) /\
  batched_thread (Account.id (Status.account r)) t.
Proof.
  intros H. destruct (reconstruct_returned _ _ _ H) as (added & _ & E & _ & Hb & _).
  split; [rewrite E; reflexivity|].
  split; [|exact Hb].
  destruct (batched_tail _ _ Hb) as (r' & rest & E' & F).
  rewrite E'. exact F.
Qed.

Lemma C2_thread_is_batched_witness :
  reconstruct root chain_ctx = Returned [root; p2; p3_to_2] /\
  hd_error [root; p2; p3_to_2] = Some root /\
  Forall (fun s => Account.id (Status.account s) = Account.id (Status.account root))
    (tl [root; p2; p3_to_2]) /\
  batched_thread (Account.id (Status.account root)) [root; p2; p3_to_2].
Proof.
  assert (H : reconstruct root chain_ctx = Returned [root; p2; p3_to_2]) by reflexivity.
  split; [exact H | apply (C2_thread_is_batched root chain_ctx _ H)].
Defined.

(** C3: root 1 by A with descendants [[2 -> 1 by A; 3 -> 2 by A; 4 -> 1 by
    B]] gives the thread [[1; 2; 3]]; the first pass only takes 2, post 3 is
    taken by the second pass. *)
Theorem C3_chain_ordering :
  reconstruct root chain_ctx = Returned [root; p2; p3_to_2] /\
  loop_body "A" [root] (Context.descendants chain_ctx) = Continue [root; p2] [p3_to_2; p4_B].
Proof. split; reflexivity. Qed.

(** C4: every pass on a thread ending in [last] whose remaining list has no
    descendant by the root's author without reply target (the others panic,
    see C1) takes all remaining descendants by the root's author replying to
    [last], in their order in the remaining list: it stops when there is
    none, and otherwise appends them as one batch and keeps the others in
    order. Root 1 with [[2 -> 1; 3 -> 1]] by A gives [[1; 2; 3]]. *)
Theorem C4_breadth_batching :
  (forall (a : string) (t d : list Status.t) (last : Status.t),
     last_opt t = Some last ->
     Forall (fun s => ~ unrepliable a s) d ->
     loop_body a t d =
       match filter (matches_spec a last) d with
       | [] => Break t
       | m :: ms => Continue (t ++ m :: ms) (filter (fun s => negb (matches_spec a last s)) d)
       end) /\
  reconstruct root batch_ctx = Returned [root; p2; p3_to_1].
Proof.
  split; [|reflexivity].
  intros a t d last L F. unfold loop_body. rewrite L.
  rewrite partition_opt_total.
  - rewrite (filter_ext (fun x => opt_true (matches_last a last x)) (matches_spec a last))
      by (intros s; cbv beta; apply opt_true_matches).
    rewrite (filter_ext (fun x => negb (opt_true (matches_last a last x)))
               (fun s => negb (matches_spec a last s)))
      by (intros s; cbv beta; rewrite opt_true_matches; reflexivity).
    destruct (filter (matches_spec a last) d); reflexivity.
  - eapply Forall_impl; [|exact F]. intros s U N. apply U.
    apply (matches_last_none a last s). exact N.
Qed.

(** C5: a pass that continues leaves strictly fewer descendants, and the loop
    never needs more than one pass per descendant plus the final one. *)
Theorem C5_loop_terminates :
  (forall (a : string) (t d t' d' : list Status.t),
     loop_body a t d = Continue t' d' -> length d' < length d) /\
  (forall (fuel : nat) (a : string) (t d : list Status.t),
     length d < fuel -> run_loop fuel a t d <> OutOfFuel) /\
  (forall (r : Status.t) (c : Context.t), reconstruct r c <> OutOfFuel).
Proof.
  split; [|split].
  - exact continue_shrinks.
  - exact run_loop_enough_fuel.
  - intros r c. apply run_loop_enough_fuel. lia.
Qed.

(** C6: a returned thread is non-empty and starts with the root post. *)
Theorem C6_thread_starts_with_root (r : Status.t) (c : Context.t) (t : list Status.t) :
  reconstruct r c = Returned t -> t <> [] /\ hd_error t = Some r.
Proof.
  intros H. destruct (reconstruct_returned _ _ _ H) as (added & _ & -> & _).
  split; [discriminate | reflexivity].
Qed.

Lemma C6_thread_starts_with_root_witness :
  reconstruct root orphan_B_ctx = Returned [root; p2; p3_to_2] /\
  [root; p2; p3_to_2] <> [] /\ hd_error [root; p2; p3_to_2] = Some root.
Proof.
  assert (H : reconstruct root orphan_B_ctx = Returned [root; p2; p3_to_2]) by reflexivity.
  split; [exact H | apply (C6_thread_starts_with_root root orphan_B_ctx _ H)].
Defined.

(** C10: the posts after the first of a returned thread, together with the
    descendants left over, are a permutation of the descendant list: each is
    taken from its own position; the thread has at most one post more than
    there are descendants. *)
Theorem C10_thread_draws_distinct_descendants (r : Status.t) (c : Context.t) (t : list Status.t) :
  reconstruct r c = Returned t ->
  (exists rest, Permutation (tl t ++ rest) (Context.descendants c)) /\
  length t <= S (length (Context.descendants c)).
Proof.
  intros H. destruct (reconstruct_returned _ _ _ H) as (added & rest & -> & P & _).
  split; [exists rest; exact P|].
  apply Permutation_length in P. rewrite length_app in P. simpl. lia.
Qed.

Lemma C10_thread_draws_distinct_descendants_witness :
  reconstruct root chain_ctx = Returned [root; p2; p3_to_2] /\
  (exists rest, Permutation (tl [root; p2; p3_to_2] ++ rest) (Context.descendants chain_ctx)) /\
  length [root; p2; p3_to_2] <= S (length (Context.descendants chain_ctx)).
Proof.
  assert (H : reconstruct root chain_ctx = Returned [root; p2; p3_to_2]) by reflexivity.
  split; [exact H | apply (C10_thread_draws_distinct_descendants root chain_ctx _ H)].
Defined.

End ThreadClaims.

(** ** The claim on [fetch_status_and_context] *)

Module FetchClaims.
Import Fetch.

Arguments fetch_status_and_context {Response Error} send json_status json_context host id.

(** C7: the fetcher returns the decoded (status, context) pair exactly when
    both requests succeed and both bodies decode; otherwise it returns one
    failure. *)
Theorem C7_fetch_ok_iff_all_succeed
    (Response Error : Type) (send : string -> result Response Error)
    (json_status : Response -> result Status.t Error)
    (json_context : Response -> result Context.t Error) (host id : string) :
  (forall s c,
     fetch_status_and_context send json_status json_context host id = Ok (s, c) <->
     exists rs rc, send (status_url host id) = Ok rs /\ send (context_url host id) = Ok rc /\
                   json_status rs = Ok s /\ json_context rc = Ok c) /\
  ((exists e, fetch_status_and_context send json_status json_context host id = Err e) <->
   ~ exists rs rc s c, send (status_url host id) = Ok rs /\ send (context_url host id) = Ok rc /\
                       json_status rs = Ok s /\ json_context rc = Ok c).
Proof.
  assert (Hok : forall s c,
     fetch_status_and_context send json_status json_context host id = Ok (s, c) <->
     exists rs rc, send (status_url host id) = Ok rs /\ send (context_url host id) = Ok rc /\
                   json_status rs = Ok s /\ json_context rc = Ok c).
  { intros s c. unfold fetch_status_and_context, try_join. cbv zeta. split.
    - destruct (send (status_url host id)) as [rs|e] eqn:E1; [|simpl; intros H; discriminate].
      destruct (send (context_url host id)) as [rc|e] eqn:E2; [|simpl; intros H; discriminate].
      destruct (json_status rs) as [s0|e] eqn:E3; [|simpl; intros H; discriminate].
      destruct (json_context rc) as [c0|e] eqn:E4; [|simpl; intros H; discriminate].
      simpl. intros H. injection H as <- <-. exists rs, rc. auto.
    - intros (rs & rc & H1 & H2 & H3 & H4). rewrite H1, H2, H3, H4. reflexivity. }
  split; [exact Hok|].
  destruct (fetch_status_and_context send json_status json_context host id)
    as [[s c]|e] eqn:F.
  - split; [intros [e H]; discriminate|].
    intros Hn. exfalso. apply Hn.
    destruct (proj1 (Hok s c) eq_refl) as (rs & rc & H). eauto.
  - split; [|intros _; exists e; reflexivity].
    intros _ (rs & rc & s & c & H).
    assert (E : Err e = Ok (s, c)) by (apply Hok; eauto). discriminate.
Qed.

End FetchClaims.

(** ** The claim on the route parameters of [Threads] *)

Module ThreadsClaims.
Import Threads.

(** C8 (counterexample): parameters that parse with host and id absent do
    not fall back to [("mastodon.social", "1")]: the [unwrap] panics. *)
Lemma C8_absent_params_panic :
  fetch_args (ParamsOk None None) = None /\
  fetch_args (ParamsOk None None) <> Some ("mastodon.social", "1").
Proof. split; [reflexivity | discriminate]. Qed.

(** C8 (amended): the fallbacks host ["mastodon.social"] and id ["1"] are
    used when extracting the parameters fails as a whole; parameters that
    parse are used as given, and an absent host or id panics at its
    [unwrap], so a fetch never starts without a concrete (host, id) pair. *)
Theorem C8_fallback_on_params_error :
  fetch_args ParamsErr = Some ("mastodon.social", "1") /\
  (forall h i, fetch_args (ParamsOk (Some h) (Some i)) = Some (h, i)) /\
  (forall i, fetch_args (ParamsOk None i) = None) /\
  (forall h, fetch_args (ParamsOk h None) = None).
Proof.
  split; [reflexivity|]. split; [reflexivity|].
  split; intros [x|]; reflexivity.
Qed.

End ThreadsClaims.

(** ** The claim on the URL interpreter of [Home] *)

Module HomeClaims.
Import Home.

Definition url_numeric : string := "https://mastodon.social/@user/110000000001".
Definition url_alnum : string := "https://mastodon.social/@user/abc123".

Lemma non_numeric_false (id : string) :
  id_is_non_numeric id = false <->
  Forall (fun c => is_digit10 c = true) (list_ascii_of_string id).
Proof.
  unfold id_is_non_numeric. rewrite Forall_forall.
  split.
  - intros H c Hc. destruct (is_digit10 c) eqn:D; [reflexivity|].
    assert (E : existsb (fun c => negb (is_digit10 c)) (list_ascii_of_string id) = true).
    { apply existsb_exists. exists c. rewrite D. auto. }
    congruence.
  - intros H. destruct (existsb _ _) eqn:E; [|reflexivity].
    apply existsb_exists in E as (c & Hc & Nc).
    rewrite (H c Hc) in Nc. discriminate.
Qed.

(** C9: for any URL parser, the effect navigates exactly when the URL parses
    with a host and path segments whose last segment is all decimal digits,
    to the route [/host/id]; on the two sample URLs the host is
    [mastodon.social], the first navigates to [/mastodon.social/110000000001]
    and the second does not navigate. *)
Theorem C9_url_interpreter :
  (forall (url_parse : string -> option (option string * option (list string)))
          (url route : string),
     home_effect url_parse url = Navigate route <->
     exists host segments id,
       url_parse url = Some (Some host, Some segments) /\
       Thread.last_opt segments = Some id /\
       Forall (fun c => is_digit10 c = true) (list_ascii_of_string id) /\
       route = String.append "/" (String.append host (String.append "/" id))) /\
  url_parse_fragment url_numeric =
    Some (Some "mastodon.social", Some ["@user"; "110000000001"]) /\
  home_effect url_parse_fragment url_numeric = Navigate "/mastodon.social/110000000001" /\
  url_parse_fragment url_alnum = Some (Some "mastodon.social", Some ["@user"; "abc123"]) /\
  home_effect url_parse_fragment url_alnum = NoNavigation.
Proof.
  split; [|repeat split; reflexivity].
  intros url_parse url route. unfold home_effect. split.
  - destruct (url_parse url) as [[[host|] [segments|]]|]; try discriminate.
    destruct (Thread.last_opt segments) as [id|] eqn:L; [|discriminate].
    destruct (id_is_non_numeric id) eqn:N; [discriminate|].
    intros H. injection H as <-. exists host, segments, id.
    split; [reflexivity|]. split; [first [reflexivity | assumption]|]. split; [|reflexivity].
    apply non_numeric_false. exact N.
  - intros (host & segments & id & -> & -> & D & ->).
    apply non_numeric_false in D. rewrite D. reflexivity.
Qed.

End HomeClaims.

(** ** Further lemmas on the reconstruction loop *)

Module LoopFacts.
Import Thread ThreadSpec ThreadFacts.

Lemma run_loop_fuel_mono (fuel k : nat) (a : string) (t d : list Status.t) :
  run_loop fuel a t d <> OutOfFuel -> run_loop (fuel + k) a t d = run_loop fuel a t d.
Proof.
  revert t d. induction fuel as [|fuel IH]; intros t d H; [contradiction|].
  simpl in *. destruct (loop_body a t d); auto.
Qed.

Lemma run_loop_fuel_irrelevant (fuel fuel' : nat) (a : string) (t d : list Status.t) :
  length d < fuel -> length d < fuel' -> run_loop fuel a t d = run_loop fuel' a t d.
Proof.
  intros H H'.
  assert (fuel <= fuel' \/ fuel' <= fuel) as [L|L] by lia.
  - replace fuel' with (fuel + (fuel' - fuel)) by lia.
    symmetry. apply run_loop_fuel_mono, run_loop_enough_fuel. exact H.
  - replace fuel with (fuel' + (fuel - fuel')) by lia.
    apply run_loop_fuel_mono, run_loop_enough_fuel. exact H'.
Qed.

Lemma partition_opt_filter {A} (p : A -> option bool) (f : A -> bool) (l : list A) :
  (forall x, f x = false -> p x = Some false) ->
  partition_opt p (filter f l) =
  match partition_opt p l with
  | Some (m, r) => Some (m, filter f r)
  | None => None
  end.
Proof.
  intros Hf. induction l as [|x l IH]; [reflexivity|].
  simpl. destruct (f x) eqn:F.
  - simpl. destruct (p x) as [b|]; [|reflexivity]. rewrite IH.
    destruct (partition_opt p l) as [[m r]|]; [|reflexivity].
    destruct b; simpl; rewrite ?F; reflexivity.
  - rewrite (Hf x F). rewrite IH.
    destruct (partition_opt p l) as [[m r]|]; [|reflexivity].
    simpl. rewrite F. reflexivity.
Qed.

(** Whether a descendant is by the given author. *)
Definition by_author (a : string) (s : Status.t) : bool :=
  String.eqb (Account.id (Status.account s)) a.

Lemma body_filter_author (a : string) (t d : list Status.t) :
  loop_body a t (filter (by_author a) d) =
  match loop_body a t d with
  | Continue t' d' => Continue t' (filter (by_author a) d')
  | other => other
  end.
Proof.
  unfold loop_body. destruct (last_opt t) as [last|]; [|reflexivity].
  rewrite partition_opt_filter.
  - destruct (partition_opt (matches_last a last) d) as [[[|x m] r]|]; reflexivity.
  - intros s F. unfold matches_last. unfold by_author in F. rewrite F. reflexivity.
Qed.

Lemma run_loop_filter_author (fuel : nat) (a : string) (t d : list Status.t) :
  run_loop fuel a t (filter (by_author a) d) = run_loop fuel a t d.
Proof.
  revert t d. induction fuel as [|fuel IH]; intros t d; [reflexivity|].
  simpl. rewrite body_filter_author. destruct (loop_body a t d); auto.
Qed.

Lemma reconstruct_filter_author (r : Status.t) (d : list Status.t) :
  reconstruct r (Context.mk (filter (by_author (Account.id (Status.account r))) d)) =
  reconstruct r (Context.mk d).
Proof.
  unfold reconstruct. cbn -[run_loop filter length].
  rewrite (run_loop_fuel_irrelevant _ (S (length d))).
  - apply run_loop_filter_author.
  - lia.
  - pose proof (filter_length_le (by_author (Account.id (Status.account r))) d). lia.
Qed.

Lemma filter_nil_forall {A} (f : A -> bool) (l : list A) :
  filter f l = [] -> Forall (fun x => f x = false) l.
Proof.
  intros H. apply Forall_forall. intros x Hx.
  destruct (f x) eqn:F; [|reflexivity].
  assert (In x (filter f l)) by (apply filter_In; auto). rewrite H in *. contradiction.
Qed.

Lemma body_break_complete (a : string) (t d t' : list Status.t) :
  loop_body a t d = Break t' ->
  t' = t /\ exists l, last_opt t = Some l /\
    Forall (fun s => matches_spec a l s = false) d.
Proof.
  unfold loop_body. destruct (last_opt t) as [l|]; [|discriminate].
  destruct (partition_opt (matches_last a l) d) as [[[|x m] r]|] eqn:P; try discriminate.
  intros H. injection H as <-. split; [reflexivity|]. exists l. split; [reflexivity|].
  destruct (partition_opt_some _ _ _ _ P) as (Hm & _).
  eapply Forall_impl; [|apply filter_nil_forall; symmetry; exact Hm].
  intros s E. cbv beta in E. rewrite opt_true_matches in E. exact E.
Qed.

Lemma run_loop_complete (fuel : nat) (a : string) (t d t' : list Status.t) :
  run_loop fuel a t d = Returned t' ->
  exists added rest l,
    t' = t ++ added /\ Permutation (added ++ rest) d /\ last_opt t' = Some l /\
    Forall (fun s => matches_spec a l s = false) rest.
Proof.
  revert t d. induction fuel as [|fuel IH]; intros t d; simpl; [discriminate|].
  destruct (loop_body a t d) as [t1 d1|t1|] eqn:B; try discriminate.
  - intros H. destruct (IH _ _ H) as (added & rest & l & -> & P & L & F).
    destruct (continue_perm _ _ _ _ _ B) as (m & -> & _ & Pm).
    exists (m ++ added), rest, l. split; [|split; [|split]].
    + rewrite app_assoc. reflexivity.
    + rewrite <- app_assoc. rewrite P. exact Pm.
    + exact L.
    + exact F.
  - intros H. injection H as <-.
    destruct (body_break_complete _ _ _ _ B) as (-> & l & L & F).
    exists [], d, l. rewrite app_nil_r. auto.
Qed.

Lemma last_opt_last {A} (t : list A) (l d : A) : last_opt t = Some l -> last t d = l.
Proof.
  intros H. destruct (last_opt_some _ _ H) as [t0 ->]. apply last_last.
Qed.

Lemma matches_spec_false (a : string) (l s : Status.t) :
  matches_spec a l s = false <->
  ~ (Account.id (Status.account s) = a /\ Status.in_reply_to_id s = Some (Status.id l)).
Proof.
  unfold matches_spec. split.
  - intros H [Ea Er]. rewrite Ea, Er, !String.eqb_refl in H. discriminate.
  - intros H. destruct (String.eqb _ a) eqn:Ea; [|reflexivity].
    destruct (Status.in_reply_to_id s) as [x|] eqn:Er; [|reflexivity].
    simpl. destruct (String.eqb x _) eqn:Ex; [|reflexivity].
    apply String.eqb_eq in Ea, Ex. subst. exfalso. auto.
Qed.

End LoopFacts.

Module ChainFacts.
Import Thread ThreadSpec ThreadFacts LoopFacts.

Lemma filter_perm {A} (f : A -> bool) (l l' : list A) :
  Permutation l l' -> Permutation (filter f l) (filter f l').
Proof.
  induction 1 as [|x l l' _ IH|x y l|l l' l'' _ IH1 _ IH2]; simpl.
  - constructor.
  - destruct (f x); auto.
  - destruct (f x), (f y); auto. constructor.
  - etransitivity; eauto.
Qed.

Lemma filter_all_false {A} (f : A -> bool) (l : list A) :
  Forall (fun x => f x = false) l -> filter f l = [].
Proof. induction 1 as [|x l Hx _ IH]; simpl; [|rewrite Hx]; auto. Qed.

Lemma filter_all_true {A} (f : A -> bool) (l : list A) :
  Forall (fun x => f x = true) l -> filter f l = l.
Proof. induction 1 as [|x l Hx _ IH]; simpl; [|rewrite Hx, IH]; auto. Qed.

Lemma chain_authors (a : string) (p : Status.t) (ps : list Status.t) :
  chain_from a p ps ->
  Forall (fun s => Account.id (Status.account s) = a /\
                   exists x, Status.in_reply_to_id s = Some x) ps.
Proof. induction 1; constructor; eauto. Qed.

Lemma chain_preds (a : string) (q : Status.t) (qs : list Status.t) :
  chain_from a q qs ->
  Forall (fun s => exists x, In x (q :: qs) /\ Status.in_reply_to_id s = Some (Status.id x)) qs.
Proof.
  induction 1 as [p|p q' qs' _ Hr _ IH]; constructor.
  - exists p. simpl. auto.
  - eapply Forall_impl; [|exact IH]. intros s (x & Hx & E). exists x. simpl in *. tauto.
Qed.

Lemma run_loop_chain (a : string) (ps : list Status.t) :
  forall t p d fuel,
  chain_from a p ps -> NoDup (map Status.id (p :: ps)) ->
  Permutation d ps -> length d < fuel ->
  run_loop fuel a (t ++ [p]) d = Returned (t ++ p :: ps).
Proof.
  induction ps as [|q qs IH]; intros t p d fuel Hc Hn Hp Hf.
  - apply Permutation_sym, Permutation_nil in Hp. subst d.
    destruct fuel as [|fuel]; [simpl in Hf; lia|].
    simpl. unfold loop_body. rewrite last_opt_snoc. reflexivity.
  - inversion Hc as [|p' q' qs' Ea Er Hc']; subst.
    destruct fuel as [|fuel]; [simpl in Hf; lia|].
    assert (Hq : matches_spec (Account.id (Status.account q)) p q = true).
    { unfold matches_spec. rewrite Er, !String.eqb_refl. reflexivity. }
    assert (Hqs : Forall (fun s => matches_spec (Account.id (Status.account q)) p s = false) qs).
    { eapply Forall_impl; [|exact (chain_preds _ _ _ Hc')].
      intros s (x & Hx & Es). apply matches_spec_false. intros [_ E].
      rewrite Es in E. injection E as E.
      simpl in Hn. inversion Hn as [|y ys Hnot _]. apply Hnot.
      rewrite <- E. change (In (Status.id x) (map Status.id (q :: qs))).
      apply in_map. exact Hx. }
    assert (Hd : Forall (fun s => matches_last (Account.id (Status.account q)) p s <> None) d).
    { apply (Permutation_Forall (Permutation_sym Hp)).
      eapply Forall_impl; [|exact (chain_authors _ _ _ Hc)].
      intros s [_ [x Ex]] N. apply matches_last_none in N as [_ N]. congruence. }
    simpl. unfold loop_body at 1. rewrite last_opt_snoc.
    rewrite (partition_opt_total _ _ Hd).
    rewrite (filter_ext (fun x => opt_true (matches_last (Account.id (Status.account q)) p x))
               (matches_spec (Account.id (Status.account q)) p))
      by (intros s; cbv beta; apply opt_true_matches).
    rewrite (filter_ext (fun x => negb (opt_true (matches_last (Account.id (Status.account q)) p x)))
               (fun s => negb (matches_spec (Account.id (Status.account q)) p s)))
      by (intros s; cbv beta; rewrite opt_true_matches; reflexivity).
    assert (Em : filter (matches_spec (Account.id (Status.account q)) p) d = [q]).
    { apply Permutation_length_1_inv, Permutation_sym.
      rewrite (filter_perm _ _ _ Hp). simpl. rewrite Hq, filter_all_false by exact Hqs.
      reflexivity. }
    rewrite Em. cbn [run_loop].
    change (p :: q :: qs) with ([p] ++ q :: qs). rewrite app_assoc.
    apply IH.
    + exact Hc'.
    + simpl in Hn. inversion Hn. assumption.
    + rewrite (filter_perm _ _ _ Hp). simpl. rewrite Hq. simpl.
      rewrite filter_all_true; [reflexivity|].
      eapply Forall_impl; [|exact Hqs]. intros s E. rewrite E. reflexivity.
    + pose proof (filter_length_le (fun s => negb (matches_spec (Account.id (Status.account q)) p s)) d).
      pose proof (Permutation_length Hp) as Hl. simpl in Hl, Hf.
      assert (length (filter (fun s => negb (matches_spec (Account.id (Status.account q)) p s)) d)
              = length qs).
      { apply Permutation_length. rewrite (filter_perm _ _ _ Hp). simpl. rewrite Hq. simpl.
        rewrite filter_all_true; [reflexivity|].
        eapply Forall_impl; [|exact Hqs]. intros s E. rewrite E. reflexivity. }
      lia.
Qed.

End ChainFacts.

(** ** Further properties of the reconstruction *)

Module ThreadExtras.
Import Thread ThreadSpec ThreadFacts LoopFacts ChainFacts Fixtures.

(** Descendants by accounts other than the root's never change the outcome:
    dropping them all gives the same result, thread or panic. *)
Theorem reconstruct_ignores_other_authors (r : Status.t) (d : list Status.t) :
  reconstruct r (Context.mk
    (filter (fun s => String.eqb (Account.id (Status.account s))
                                 (Account.id (Status.account r))) d)) =
  reconstruct r (Context.mk d).
Proof. exact (reconstruct_filter_author r d). Qed.

(** When no descendant is by the root's author (an empty context included),
    the thread is the root alone. *)
Theorem reconstruct_root_only (r : Status.t) (d : list Status.t) :
  Forall (fun s => Account.id (Status.account s) <> Account.id (Status.account r)) d ->
  reconstruct r (Context.mk d) = Returned [r].
Proof.
  intros H. rewrite <- reconstruct_filter_author.
  rewrite filter_all_false; [reflexivity|].
  eapply Forall_impl; [|exact H]. intros s N. apply String.eqb_neq. exact N.
Qed.

Lemma reconstruct_root_only_witness :
  Forall (fun s => Account.id (Status.account s) <> Account.id (Status.account root))
    [p4_B; p6_orphan_B] /\
  reconstruct root (Context.mk [p4_B; p6_orphan_B]) = Returned [root].
Proof.
  assert (H : Forall (fun s => Account.id (Status.account s) <> Account.id (Status.account root))
                [p4_B; p6_orphan_B])
    by (repeat constructor; simpl; discriminate).
  split; [exact H | apply (reconstruct_root_only root _ H)].
Defined.

(** A returned thread is complete: the descendants left out of it are the
    ones left over, and none of them is by the root's author and replies to
    the thread's last post. *)
Theorem reconstruct_complete (r : Status.t) (c : Context.t) (t : list Status.t) :
  reconstruct r c = Returned t ->
  exists rest,
    Permutation (tl t ++ rest) (Context.descendants c) /\
    Forall (fun s => ~ (Account.id (Status.account s) = Account.id (Status.account r) /\
                        Status.in_reply_to_id s = Some (Status.id (last t r)))) rest.
Proof.
  unfold reconstruct. intros H.
  destruct (run_loop_complete _ _ _ _ _ H) as (added & rest & l & -> & P & L & F).
  exists rest. split; [exact P|].
  rewrite (last_opt_last _ _ r L).
  eapply Forall_impl; [|exact F]. intros s E. apply matches_spec_false. exact E.
Qed.

Lemma reconstruct_complete_witness :
  reconstruct root chain_ctx = Returned [root; p2; p3_to_2] /\
  exists rest,
    Permutation (tl [root; p2; p3_to_2] ++ rest) (Context.descendants chain_ctx) /\
    Forall (fun s => ~ (Account.id (Status.account s) = Account.id (Status.account root) /\
                        Status.in_reply_to_id s = Some (Status.id (last [root; p2; p3_to_2] root))))
      rest.
Proof.
  assert (H : reconstruct root chain_ctx = Returned [root; p2; p3_to_2]) by reflexivity.
  split; [exact H | apply (reconstruct_complete root chain_ctx _ H)].
Defined.

(** A reply chain by the root's author, each post replying to the previous
    one and all ids distinct, is recovered in chain order whatever the order
    of the descendant list. *)
Theorem reconstruct_chain_any_order (r : Status.t) (ps d : list Status.t) :
  chain_from (Account.id (Status.account r)) r ps ->
  NoDup (map Status.id (r :: ps)) ->
  Permutation d ps ->
  reconstruct r (Context.mk d) = Returned (r :: ps).
Proof.
  intros Hc Hn Hp. unfold reconstruct. cbn -[run_loop length].
  apply (run_loop_chain _ ps [] r d); auto.
Qed.

Lemma reconstruct_chain_any_order_witness :
  reconstruct root (Context.mk [p3_to_2; p2]) = Returned [root; p2; p3_to_2].
Proof.
  apply (reconstruct_chain_any_order root [p2; p3_to_2] [p3_to_2; p2]).
  - constructor; [reflexivity | reflexivity |].
    constructor; [reflexivity | reflexivity | constructor].
  - simpl. repeat (apply NoDup_cons; [simpl; intuition discriminate|]).
    constructor.
  - apply perm_swap.
Defined.

End ThreadExtras.

(** ** Properties of the fetch, the [Threads] resource and view, and [Home] *)

Module AppExtras.
Import Thread ThreadSpec ThreadFacts View.

Arguments Fetch.fetch_status_and_context {Response Error} send json_status json_context host id.
Arguments fetch_thread {Response Error} send json_status json_context host id.
Arguments thread_resource {Response Error} send json_status json_context p.

(** [fetch_thread] passes a fetch failure through unchanged, returns a thread
    exactly when the fetch decodes a pair whose reconstruction returns it
    (the thread then starts with the decoded status), and never runs out of
    loop passes. *)
Theorem fetch_thread_composition
    (Response Error : Type) (send : string -> Fetch.result Response Error)
    (json_status : Response -> Fetch.result Status.t Error)
    (json_context : Response -> Fetch.result Context.t Error) (host id : string) :
  (forall e, fetch_thread send json_status json_context host id = ThreadErr e <->
             Fetch.fetch_status_and_context send json_status json_context host id = Fetch.Err e) /\
  (forall t, fetch_thread send json_status json_context host id = ThreadOk t <->
             exists s c,
               Fetch.fetch_status_and_context send json_status json_context host id =
                 Fetch.Ok (s, c) /\
               reconstruct s c = Returned t /\ hd_error t = Some s) /\
  fetch_thread send json_status json_context host id <> ThreadOutOfFuel.
Proof.
  unfold fetch_thread.
  destruct (Fetch.fetch_status_and_context send json_status json_context host id)
    as [[s c]|e'].
  - assert (NF : reconstruct s c <> OutOfFuel)
      by (apply run_loop_enough_fuel; lia).
    split; [|split].
    + intros e. split; [|discriminate].
      destruct (reconstruct s c); discriminate.
    + intros t. split.
      * destruct (reconstruct s c) as [t'| |] eqn:R; try discriminate.
        intros H. injection H as <-. exists s, c. split; [reflexivity|].
        split; [exact R|].
        destruct (ThreadClaims.reconstruct_returned _ _ _ R) as (added & _ & -> & _). reflexivity.
      * intros (s' & c' & E & R & _). injection E as <- <-. rewrite R. reflexivity.
    + destruct (reconstruct s c); try discriminate. contradiction.
  - split; [|split].
    + intros e. split; intros H; injection H as <-; reflexivity.
    + intros t. split; [discriminate|]. intros (s & c & E & _). discriminate.
    + discriminate.
Qed.

(** The [Threads] resource has no error state: it either panics or yields a
    thread, and it yields one exactly when the route parameters give a
    (host, id), the fetch for them decodes a pair, and reconstructing that
    pair returns the thread. *)
Theorem thread_resource_fatal_failures
    (Response Error : Type) (send : string -> Fetch.result Response Error)
    (json_status : Response -> Fetch.result Status.t Error)
    (json_context : Response -> Fetch.result Context.t Error) (p : Threads.params) :
  (thread_resource send json_status json_context p = Panicked \/
   exists t, thread_resource send json_status json_context p = Returned t) /\
  thread_resource send json_status json_context p <> OutOfFuel /\
  (forall t, thread_resource send json_status json_context p = Returned t <->
     exists host id s c,
       Threads.fetch_args p = Some (host, id) /\
       Fetch.fetch_status_and_context send json_status json_context host id =
         Fetch.Ok (s, c) /\
       reconstruct s c = Returned t).
Proof.
  enough (H : (thread_resource send json_status json_context p = Panicked \/
               exists t, thread_resource send json_status json_context p = Returned t) /\
              (forall t, thread_resource send json_status json_context p = Returned t <->
                 exists host id s c,
                   Threads.fetch_args p = Some (host, id) /\
                   Fetch.fetch_status_and_context send json_status json_context host id =
                     Fetch.Ok (s, c) /\
                   reconstruct s c = Returned t)).
  { destruct H as [H1 H2]. split; [exact H1|]. split; [|exact H2].
    destruct H1 as [E|[t E]]; rewrite E; discriminate. }
  unfold thread_resource, fetch_thread.
  destruct (Threads.fetch_args p) as [[host id]|].
  - destruct (Fetch.fetch_status_and_context send json_status json_context host id)
      as [[s c]|e] eqn:F.
    + assert (NF : reconstruct s c <> OutOfFuel)
        by (apply run_loop_enough_fuel; lia).
      destruct (reconstruct s c) as [t| |] eqn:R; [| |contradiction].
      * split; [right; exists t; reflexivity|].
        intros t'. split.
        -- intros H. injection H as <-. exists host, id, s, c. auto.
        -- intros (h' & i' & s' & c' & E & F' & R').
           injection E as <- <-. rewrite F in F'. injection F' as <- <-.
           congruence.
      * split; [left; reflexivity|]. intros t. split; [discriminate|].
        intros (h' & i' & s' & c' & E & F' & R').
        injection E as <- <-. rewrite F in F'. injection F' as <- <-. congruence.
    + split; [left; reflexivity|]. intros t. split; [discriminate|].
      intros (h' & i' & s' & c' & E & F' & R').
      injection E as <- <-. congruence.
  - split; [left; reflexivity|]. intros t. split; [discriminate|].
    intros (h' & i' & s' & c' & E & _). discriminate.
Qed.

(** The view shows ["loading..."] while the resource is pending; once it
    holds a thread [t], its node [2 i] is a [div] whose inner HTML is the
    content of the [i]-th status of [t], verbatim, its node [2 i + 1] is a
    rule, and there are no other nodes. *)
Theorem render_div_then_hr :
  render None = [Paragraph "loading..."] /\
  forall t i,
    nth_error (render (Some t)) (2 * i) =
      option_map (fun s => InnerHtmlDiv (Status.content s)) (nth_error t i) /\
    nth_error (render (Some t)) (2 * i + 1) = option_map (fun _ => Hr) (nth_error t i) /\
    length (render (Some t)) = 2 * length t.
Proof.
  split; [reflexivity|]. intros t. cbn [render].
  induction t as [|s t IH]; intros i.
  - destruct i; cbn; auto.
  - cbn [flat_map app].
    destruct i as [|i].
    + cbn [Nat.mul Nat.add nth_error length option_map].
      split; [reflexivity|]. split; [reflexivity|].
      destruct (IH 0) as (_ & _ & L). rewrite L. lia.
    + destruct (IH i) as (H1 & H2 & L).
      replace (2 * S i + 1) with (S (S (2 * i + 1))) by lia.
      replace (2 * S i) with (S (S (2 * i))) by lia.
      cbn [nth_error length]. rewrite H1, H2, L.
      split; [reflexivity|]. split; [reflexivity|]. lia.
Qed.

End AppExtras.

Module HomeExtras.
Import Home.

(** An empty last path segment (a URL ending in [/]) counts as all digits:
    the effect navigates to [/host/] with an empty id. *)
Theorem home_effect_empty_last_segment
    (url_parse : string -> option (option string * option (list string)))
    (url host : string) (segments : list string) :
  url_parse url = Some (Some host, Some segments) ->
  Thread.last_opt segments = Some EmptyString ->
  home_effect url_parse url = Navigate (String.append "/" (String.append host "/")).
Proof.
  intros P L. unfold home_effect. rewrite P, L. reflexivity.
Qed.

Lemma home_effect_empty_last_segment_witness :
  url_parse_fragment "https://mastodon.social/@user/" =
    Some (Some "mastodon.social", Some ["@user"; EmptyString]) /\
  home_effect url_parse_fragment "https://mastodon.social/@user/" =
    Navigate "/mastodon.social/".
Proof.
  assert (P : url_parse_fragment "https://mastodon.social/@user/" =
                Some (Some "mastodon.social", Some ["@user"; EmptyString])) by reflexivity.
  split; [exact P|].
  apply (home_effect_empty_last_segment url_parse_fragment _ "mastodon.social" ["@user"; EmptyString] P).
  reflexivity.
Defined.

End HomeExtras.
